(** * sequel: the filter combinators of [src/filter.ts]

    A shallow embedding of the boolean filter combinators ([filter], [and],
    [or], [not], [identity]) and of [QueryFilterImpl.apply], together with
    the properties the specification states about them.

    A leaf predicate is arbitrary JavaScript: it may read and write state,
    and it may throw.  Evaluation is therefore modelled in a small
    state-and-exception monad, instrumented with the list of leaf
    invocations a computation performs. *)

From Stdlib Require Import List Bool Permutation.
Import ListNotations.

Set Implicit Arguments.

Module Sequel.

(** ** The evaluation monad *)

Section Engine.

Context {Element Error World : Type}.

(** How the evaluation of a JavaScript expression ends: with a value, or
    with a thrown error. *)
Inductive Completion (A : Type) : Type :=
| Normal (v : A)
| Throw (e : Error).

Arguments Normal {A} v.
Arguments Throw {A} e.

(** [type QueryFilterPredicate = (el: Element) => boolean]: a function
    that is run against the current state of the world. *)
Definition QueryFilterPredicate : Type :=
  Element -> World -> Completion bool * World.

(** One invocation [fn(el)] of a leaf predicate, with how it ended. *)
Record Invocation : Type := {
  callee : QueryFilterPredicate;
  argument : Element;
  outcome : Completion bool
}.

(** What running a computation yields: its completion, the world it leaves
    behind and the leaf invocations it made, oldest first. *)
Record Run (A : Type) : Type := {
  completion : Completion A;
  world : World;
  calls : list Invocation
}.

Definition Eff (A : Type) : Type := World -> Run A.

Definition ret {A} (a : A) : Eff A :=
  fun w => {| completion := Normal a; world := w; calls := [] |}.

(** Sequencing: a thrown error skips the continuation. *)
Definition bind {A B} (m : Eff A) (k : A -> Eff B) : Eff B :=
  fun w =>
    let r := m w in
    match completion r with
    | Normal a =>
        let r' := k a (world r) in
        {| completion := completion r';
           world := world r';
           calls := calls r ++ calls r' |}
    | Throw e =>
        {| completion := Throw e; world := world r; calls := calls r |}
    end.

(** The call [fn(el)] of a leaf predicate. *)
Definition invoke (fn : QueryFilterPredicate) (el : Element) : Eff bool :=
  fun w =>
    let (c, w') := fn el w in
    {| completion := c;
       world := w';
       calls := [ {| callee := fn; argument := el; outcome := c |} ] |}.

(** The JavaScript operators [a && b], [a || b] and [!a] on boolean
    expressions: the right operand of [&&] and [||] is evaluated only when
    the left one does not decide the result. *)
Definition andJS (a b : Eff bool) : Eff bool :=
  bind a (fun x => if x then b else ret x).

Definition orJS (a b : Eff bool) : Eff bool :=
  bind a (fun x => if x then ret x else b).

Definition notJS (a : Eff bool) : Eff bool :=
  bind a (fun x => ret (negb x)).

(** [Array.prototype.reduce(callback, initialValue)] with a callback that
    has effects. *)
Section Reduce.
Variables A B : Type.
Variable callback : B -> A -> Eff B.

Fixpoint reduce (arr : list A) (initialValue : B) : Eff B :=
  match arr with
  | [] => ret initialValue
  | x :: rest => bind (callback initialValue x) (reduce rest)
  end.
End Reduce.

(** ** The data model *)

Inductive QueryFilterChainOperator : Type :=
| Intersection
| Union.

(** [QueryFilterImpl] is the only implementor of the [QueryFilter]
    interface; [AnyFilter = QueryFilter | QueryFilterPredicate] is
    discriminated at run time by [typeof value === 'function'].  Trees are
    finite and are not modified once built: the array behind the [filters]
    getter is only read. *)
Inductive QueryFilterImpl : Type :=
| new_QueryFilterImpl (_chainOp : QueryFilterChainOperator) (_negated : bool)
    (_filters : list AnyFilter) (_async : bool)
with AnyFilter : Type :=
| Predicate (fn : QueryFilterPredicate)
| Filter (f : QueryFilterImpl).

(** The read-only accessors of [QueryFilterImpl]. *)
Definition chainOp (this : QueryFilterImpl) : QueryFilterChainOperator :=
  match this with new_QueryFilterImpl op _ _ _ => op end.

Definition negated (this : QueryFilterImpl) : bool :=
  match this with new_QueryFilterImpl _ n _ _ => n end.

Definition filters (this : QueryFilterImpl) : list AnyFilter :=
  match this with new_QueryFilterImpl _ _ fs _ => fs end.

Definition async (this : QueryFilterImpl) : bool :=
  match this with new_QueryFilterImpl _ _ _ a => a end.

Definition isQueryFilterPredicate (value : AnyFilter) : bool :=
  match value with
  | Predicate _ => true
  | Filter _ => false
  end.

Definition isQueryFilter (value : AnyFilter) : bool :=
  match value with
  | Predicate _ => false
  | Filter _ => true
  end.

(** ** Evaluation *)

(** [QueryFilterImpl.apply]. *)
Fixpoint apply (this : QueryFilterImpl) (el : Element) {struct this} : Eff bool :=
  bind
    match chainOp this with
    | Intersection =>
        reduce
          (fun (accumulator : bool) (fn : AnyFilter) =>
             if accumulator
             then match fn with
                  | Predicate fn => invoke fn el
                  | Filter fn => apply fn el
                  end
             else ret accumulator)
          (filters this) true
    | Union =>
        reduce
          (fun (accumulator : bool) (fn : AnyFilter) =>
             if accumulator
             then ret accumulator
             else match fn with
                  | Predicate fn => invoke fn el
                  | Filter fn => apply fn el
                  end)
          (filters this) false
    end
    (fun provisional =>
       ret (if negated this then negb provisional else provisional)).

(** The evaluation of one child, as both callbacks write it:
    [isQueryFilterPredicate(fn) ? fn(el) : fn.apply(el)]. *)
Definition applyAny (fn : AnyFilter) (el : Element) : Eff bool :=
  match fn with
  | Predicate fn => invoke fn el
  | Filter fn => apply fn el
  end.

(** The two reduction callbacks of [apply] and its last line. *)
Definition intersect (el : Element) (accumulator : bool) (fn : AnyFilter)
  : Eff bool :=
  if accumulator then applyAny fn el else ret accumulator.

Definition unite (el : Element) (accumulator : bool) (fn : AnyFilter)
  : Eff bool :=
  if accumulator then ret accumulator else applyAny fn el.

Definition finish (this : QueryFilterImpl) (provisional : bool) : Eff bool :=
  ret (if negated this then negb provisional else provisional).

(** The initial value of the reduction of each chain operator; it is also
    the one child result after which the reduction still evaluates the
    next child. *)
Definition seed (op : QueryFilterChainOperator) : bool :=
  match op with Intersection => true | Union => false end.

(** ** The factory functions

    The constructor's fourth parameter, [_async], is left at its default
    ([false]) by every factory. *)

Definition filter (predicate : QueryFilterPredicate) : QueryFilterImpl :=
  new_QueryFilterImpl Intersection false [Predicate predicate] false.

Definition and (filters : list AnyFilter) : QueryFilterImpl :=
  new_QueryFilterImpl Intersection false filters false.

Definition or (filters : list AnyFilter) : QueryFilterImpl :=
  new_QueryFilterImpl Union false filters false.

Definition not (filter : AnyFilter) : QueryFilterImpl :=
  new_QueryFilterImpl Intersection true [filter] false.

(** The node that [and] (for Intersection) and [or] (for Union) build. *)
Definition chain (op : QueryFilterChainOperator) (filters : list AnyFilter)
  : QueryFilterImpl :=
  match op with
  | Intersection => and filters
  | Union => or filters
  end.

(** [filter(() => true)]. *)
Definition identity : QueryFilterImpl :=
  filter (fun _ w => (Normal true, w)).

(** ** Structural tools *)

(** Induction over a filter tree, one child at a time: [P] for nodes, [Q]
    for children. *)
Section ChildInduction.
Variable P : QueryFilterImpl -> Prop.
Variable Q : AnyFilter -> Prop.
Hypothesis Q_predicate : forall fn, Q (Predicate fn).
Hypothesis Q_filter : forall f, P f -> Q (Filter f).
Hypothesis P_nil : forall op neg a, P (new_QueryFilterImpl op neg [] a).
Hypothesis P_cons :
  forall op neg c cs a,
    Q c -> P (new_QueryFilterImpl op neg cs a) ->
    P (new_QueryFilterImpl op neg (c :: cs) a).

Fixpoint filter_child_ind (this : QueryFilterImpl) : P this :=
  match this with
  | new_QueryFilterImpl op neg fs a =>
      (fix children (l : list AnyFilter) : P (new_QueryFilterImpl op neg l a) :=
         match l with
         | [] => P_nil op neg a
         | c :: l' =>
             @P_cons op neg c l' a
               match c return Q c with
               | Predicate fn => Q_predicate fn
               | Filter f => Q_filter (filter_child_ind f)
               end
               (children l')
         end) fs
  end.

End ChildInduction.

(** The same tree with every [_async] flag, at any depth, set to [false]:
    two trees with the same image differ in their [_async] flags only. *)
Fixpoint clearAsync (this : QueryFilterImpl) : QueryFilterImpl :=
  match this with
  | new_QueryFilterImpl op neg fs _ =>
      new_QueryFilterImpl op neg
        (map (fun c =>
                match c with
                | Predicate fn => Predicate fn
                | Filter f => Filter (clearAsync f)
                end) fs)
        false
  end.

Definition clearAsyncAny (c : AnyFilter) : AnyFilter :=
  match c with
  | Predicate fn => Predicate fn
  | Filter f => Filter (clearAsync f)
  end.

(** The leaf predicates of a tree, left to right, one entry per
    occurrence. *)
Fixpoint leaves (this : QueryFilterImpl) : list QueryFilterPredicate :=
  match this with
  | new_QueryFilterImpl _ _ fs _ =>
      flat_map (fun c =>
                  match c with
                  | Predicate fn => [fn]
                  | Filter f => leaves f
                  end) fs
  end.

Definition leavesAny (c : AnyFilter) : list QueryFilterPredicate :=
  match c with
  | Predicate fn => [fn]
  | Filter f => leaves f
  end.

(** [Subsequence l1 l2]: [l1] is [l2] with some entries left out. *)
Inductive Subsequence {A : Type} : list A -> list A -> Prop :=
| Subsequence_nil : Subsequence [] []
| Subsequence_skip x l1 l2 : Subsequence l1 l2 -> Subsequence l1 (x :: l2)
| Subsequence_keep x l1 l2 :
    Subsequence l1 l2 -> Subsequence (x :: l1) (x :: l2).

(** The leaf invocations a call [this.apply(el)] started in state [w] has
    to make when nothing is cached: the children are taken left to right;
    a leaf is called on [el] in the state at hand, and what is recorded is
    what that call returns; a node is expanded in the same way, at each of
    its places; and the children after one that does not yield the seed
    of its node ([false] under Intersection, [true] under Union, or a
    thrown error) are cut off by [&&] (resp. [||]). *)
Fixpoint expected (this : QueryFilterImpl) (el : Element) (w : World)
  : list Invocation :=
  match this with
  | new_QueryFilterImpl op _ fs _ =>
      (fix children (l : list AnyFilter) (w : World) : list Invocation :=
         match l with
         | [] => []
         | c :: l' =>
             match c with
             | Predicate fn =>
                 [ {| callee := fn; argument := el;
                      outcome := fst (fn el w) |} ]
             | Filter f => expected f el w
             end ++
             match completion (applyAny c el w) with
             | Normal b =>
                 if Bool.eqb b (seed op)
                 then children l' (world (applyAny c el w))
                 else []
             | Throw _ => []
             end
         end) fs w
  end.

Definition expectedAny (c : AnyFilter) (el : Element) (w : World)
  : list Invocation :=
  match c with
  | Predicate fn =>
      [ {| callee := fn; argument := el; outcome := fst (fn el w) |} ]
  | Filter f => expected f el w
  end.

(** Nothing is cut off in the call [this.apply(el)] started in state [w]:
    in that call, every child that has a later sibling yields the seed of
    its node. *)
Fixpoint NothingSkipped (el : Element) (this : QueryFilterImpl) (w : World)
  : Prop :=
  match this with
  | new_QueryFilterImpl op _ fs _ =>
      (fix children (l : list AnyFilter) (w : World) : Prop :=
         match l with
         | [] => True
         | c :: l' =>
             match c with
             | Predicate _ => True
             | Filter f => NothingSkipped el f w
             end /\
             (l' <> [] -> completion (applyAny c el w) = Normal (seed op)) /\
             children l' (world (applyAny c el w))
         end) fs w
  end.

Definition NothingSkippedAny (el : Element) (c : AnyFilter) (w : World)
  : Prop :=
  match c with
  | Predicate _ => True
  | Filter f => NothingSkipped el f w
  end.

(** A leaf invocation that returned a boolean. *)
Definition returned (i : Invocation) : Prop :=
  exists b, outcome i = Normal b.

(** The shape of a fail-fast run: every leaf invocation returned, except
    that the last one threw when the run itself ends with that error. *)
Definition FailFast {A} (r : Run A) : Prop :=
  match completion r with
  | Normal _ => Forall returned (calls r)
  | Throw e =>
      exists pre i,
        calls r = pre ++ [i] /\ Forall returned pre /\ outcome i = Throw e
  end.

(** Leaf predicates without effects: a boolean test of the element,
    [() => b], and one that throws. *)
Definition pure (test : Element -> bool) : QueryFilterPredicate :=
  fun el w => (Normal (test el), w).

Definition always (b : bool) : QueryFilterPredicate :=
  fun _ w => (Normal b, w).

Definition raise (e : Error) : QueryFilterPredicate :=
  fun _ w => (Throw e, w).

(** The same node with its [negated] flag flipped. *)
Definition toggle (this : QueryFilterImpl) : QueryFilterImpl :=
  new_QueryFilterImpl (chainOp this) (negb (negated this)) (filters this)
    (async this).

(** The boolean formula a tree spells, every leaf [fn] standing for the
    boolean [v fn]: all children are combined, none is skipped. *)
Fixpoint formula (v : QueryFilterPredicate -> bool) (this : QueryFilterImpl)
  : bool :=
  match this with
  | new_QueryFilterImpl op neg fs _ =>
      let results :=
        map (fun c =>
               match c with
               | Predicate fn => v fn
               | Filter f => formula v f
               end) fs in
      let combined :=
        match op with
        | Intersection => forallb (fun b => b) results
        | Union => existsb (fun b => b) results
        end in
      if neg then negb combined else combined
  end.

Definition formulaAny (v : QueryFilterPredicate -> bool) (c : AnyFilter)
  : bool :=
  match c with
  | Predicate fn => v fn
  | Filter f => formula v f
  end.

(** ** Properties *)

Implicit Types (this g : QueryFilterImpl).
Implicit Types (fn c : AnyFilter).
Implicit Types (p : QueryFilterPredicate).
Implicit Types (el x : Element) (w : World).

(** *** The monad, pointwise *)

Lemma run_eta A (r : Run A) :
  {| completion := completion r; world := world r; calls := calls r |} = r.
Proof. destruct r; reflexivity. Qed.

Lemma bind_ret_l A B (a : A) (k : A -> Eff B) w : bind (ret a) k w = k a w.
Proof. unfold bind, ret; simpl. apply run_eta. Qed.

Lemma bind_ret_r A (m : Eff A) w : bind m (fun a => ret a) w = m w.
Proof.
  unfold bind, ret. destruct (m w) as [[a|e] w' l]; simpl; trivial.
  now rewrite app_nil_r.
Qed.

Lemma bind_assoc A B C (m : Eff A) (k : A -> Eff B) (h : B -> Eff C) w :
  bind (bind m k) h w = bind m (fun a => bind (k a) h) w.
Proof.
  unfold bind. destruct (m w) as [[a|e] w1 l1]; simpl; trivial.
  destruct (k a w1) as [[b|e] w2 l2]; simpl; trivial.
  now rewrite app_assoc.
Qed.

Lemma bind_ext_l A B (m m' : Eff A) (k : A -> Eff B) w :
  m w = m' w -> bind m k w = bind m' k w.
Proof. unfold bind. now intros ->. Qed.

Lemma bind_ext_r A B (m : Eff A) (k k' : A -> Eff B) w :
  (forall a w', k a w' = k' a w') -> bind m k w = bind m k' w.
Proof.
  intros E. unfold bind. destruct (completion (m w)); trivial. now rewrite E.
Qed.

(** *** [apply], one child at a time *)

(** The two type guards are each other's negation, and the ternary of the
    callbacks follows [isQueryFilterPredicate]. *)
Lemma isQueryFilter_negb fn :
  isQueryFilter fn = negb (isQueryFilterPredicate fn).
Proof. now destruct fn. Qed.

Lemma applyAny_guard fn el :
  if isQueryFilterPredicate fn
  then exists p, fn = Predicate p /\ applyAny fn el = invoke p el
  else exists g, fn = Filter g /\ applyAny fn el = apply g el.
Proof. destruct fn as [p|g]; cbn; eauto. Qed.

Lemma apply_unfold this el :
  apply this el =
  bind
    match chainOp this with
    | Intersection => reduce (intersect el) (filters this) true
    | Union => reduce (unite el) (filters this) false
    end
    (finish this).
Proof. destruct this; reflexivity. Qed.

(** Once the accumulator is [false] ([true] for a union) the remaining
    children are not evaluated: the callback returns the accumulator. *)
Lemma reduce_intersect_false el (fs : list AnyFilter) w :
  reduce (intersect el) fs false w = ret false w.
Proof.
  induction fs as [|c cs IH]; simpl; trivial.
  unfold intersect at 1. now rewrite bind_ret_l.
Qed.

Lemma reduce_unite_true el (fs : list AnyFilter) w :
  reduce (unite el) fs true w = ret true w.
Proof.
  induction fs as [|c cs IH]; simpl; trivial.
  unfold unite at 1. now rewrite bind_ret_l.
Qed.

Lemma apply_nil op neg a el w :
  apply (new_QueryFilterImpl op neg [] a) el w =
  ret (if neg then negb (seed op) else seed op) w.
Proof. destruct op; reflexivity. Qed.

Lemma apply_cons op neg c cs a el w :
  apply (new_QueryFilterImpl op neg (c :: cs) a) el w =
  bind (applyAny c el)
       (fun b =>
          if Bool.eqb b (seed op)
          then apply (new_QueryFilterImpl op neg cs a) el
          else ret (if neg then negb b else b)) w.
Proof.
  rewrite apply_unfold.
  destruct op; cbn [chainOp filters reduce]; rewrite bind_assoc;
    apply bind_ext_r; intros [|] w'; cbn [seed Bool.eqb].
  - reflexivity.
  - erewrite bind_ext_l by apply reduce_intersect_false.
    now rewrite bind_ret_l.
  - erewrite bind_ext_l by apply reduce_unite_true.
    now rewrite bind_ret_l.
  - reflexivity.
Qed.

(** Evaluates a tree built by the factories on children whose own
    evaluation is left abstract, by cases on how each child ends. *)
Ltac eval_children :=
  unfold identity, filter, and, or, not;
  repeat
    (unfold bind;
     cbn [ret applyAny completion world calls seed Bool.eqb negb];
     match goal with
     | |- context [apply (new_QueryFilterImpl _ _ (_ :: _) _) _ _] =>
         rewrite apply_cons
     | |- context [apply (new_QueryFilterImpl _ _ [] _) _ _] =>
         rewrite apply_nil
     | |- context [applyAny ?c ?x ?w] =>
         is_var c; destruct (applyAny c x w) as [[[|]|?] ? ?]
     | |- context [invoke ?p ?x ?w] =>
         destruct (invoke p x w) as [[[|]|?] ? ?]
     end);
  unfold bind;
  cbn [ret applyAny completion world calls seed Bool.eqb negb];
  rewrite ?app_nil_r, <- ?app_assoc; try reflexivity.

(** *** The claims *)

(** C6.  A node without children evaluates to the seed of its reduction:
    [and().apply(x)] is [true] and [or().apply(x)] is [false], for every
    element and in every state, without calling anything. *)
Theorem C6_empty_combinators :
  forall x w,
    apply (and []) x w = ret true w /\ apply (or []) x w = ret false w.
Proof. intros x w. split; reflexivity. Qed.

(** C4 (amended).  Negation is applied on top of the seed of an empty
    node: [not(and()).apply(x)] is [!true], that is [false], and
    [not(or()).apply(x)] is [!false], that is [true]. *)
Theorem C4_negated_empty_combinators :
  forall x w,
    apply (not (Filter (and []))) x w = ret false w /\
    apply (not (Filter (or []))) x w = ret true w.
Proof. intros x w. split; eval_children. Qed.

(** C7.  [filter(p).apply(x)] is [p(x)]: the same completion (value or
    thrown error), the same final state, and [p] called exactly once. *)
Theorem C7_filter_singleton :
  forall p x w, apply (filter p) x w = invoke p x w.
Proof. intros p x w. eval_children. Qed.

(** C9.  [identity.apply(x)] is [true] for every element, and leaves the
    state as it was. *)
Theorem C9_identity :
  forall x w,
    completion (apply identity x w) = Normal true /\
    world (apply identity x w) = w.
Proof. intros x w. split; reflexivity. Qed.

(** C2.  [not(f).apply(x)] is [!f.apply(x)] for a leaf predicate and for a
    composite node alike, and [not(not(f)).apply(x)] is [f.apply(x)]. *)
Theorem C2_negation :
  forall c x w,
    apply (not c) x w = notJS (applyAny c x) w /\
    apply (not (Filter (not c))) x w = applyAny c x w.
Proof. intros c x w. unfold notJS. split; eval_children. Qed.

(** C8.  De Morgan: [not(and(f1, f2)).apply(x)] is
    [or(not(f1), not(f2)).apply(x)]; both sides call the same leaves in the
    same order and end alike. *)
Theorem C8_de_morgan :
  forall f1 f2 x w,
    apply (not (Filter (and [f1; f2]))) x w =
    apply (or [Filter (not f1); Filter (not f2)]) x w.
Proof. intros f1 f2 x w. eval_children. Qed.

(** The reduction of [apply] is the left-nested chain of [&&] (of [||])
    over the children, whatever expression [m] the chain starts from. *)
Lemma reduce_intersect_fold el (fs : list AnyFilter) (m : Eff bool) w :
  bind m (reduce (intersect el) fs) w =
  fold_left andJS (map (fun c => applyAny c el) fs) m w.
Proof.
  revert m w. induction fs as [|c cs IH]; intros m w; cbn [reduce map fold_left].
  - apply bind_ret_r.
  - rewrite <- IH, <- bind_assoc. reflexivity.
Qed.

Lemma reduce_unite_fold el (fs : list AnyFilter) (m : Eff bool) w :
  bind m (reduce (unite el) fs) w =
  fold_left orJS (map (fun c => applyAny c el) fs) m w.
Proof.
  revert m w. induction fs as [|c cs IH]; intros m w; cbn [reduce map fold_left].
  - apply bind_ret_r.
  - rewrite <- IH, <- bind_assoc. reflexivity.
Qed.

(** On tests without effects, [and] is the conjunction and [or] the
    disjunction of the children's results. *)
Lemma apply_and_pure (tests : list (Element -> bool)) x w :
  completion (apply (and (map (fun t => Predicate (pure t)) tests)) x w) =
  Normal (forallb (fun t => t x) tests).
Proof.
  unfold and. induction tests as [|t ts IH]; cbn [map forallb]; trivial.
  rewrite apply_cons. unfold bind. cbn [applyAny invoke pure completion world].
  destruct (t x); cbn [seed Bool.eqb andb completion]; trivial.
Qed.

Lemma apply_or_pure (tests : list (Element -> bool)) x w :
  completion (apply (or (map (fun t => Predicate (pure t)) tests)) x w) =
  Normal (existsb (fun t => t x) tests).
Proof.
  unfold or. induction tests as [|t ts IH]; cbn [map existsb]; trivial.
  rewrite apply_cons. unfold bind. cbn [applyAny invoke pure completion world].
  destruct (t x); cbn [seed Bool.eqb orb completion]; trivial.
Qed.

(** C1.  [and(f1, f2).apply(x)] is [f1.apply(x) && f2.apply(x)] and
    [or(f1, f2).apply(x)] is [f1.apply(x) || f2.apply(x)]; with any number
    of children, [apply] is the left-to-right chain [true && c1 && ... &&
    cn] (resp. [false || c1 || ... || cn]); and a nested tree evaluates as
    the boolean expression it spells:
    [and(f1, or(f2, not(f3))).apply(x)] is [f1(x) && (f2(x) || !f3(x))].
    The operators are JavaScript's: same value or thrown error, same
    final state, same leaf invocations.  On tests without effects the
    results are the plain boolean conjunction and disjunction. *)
Theorem C1_and_or_semantics :
  forall f1 f2 f3 (fs : list AnyFilter) x w,
    apply (and [f1; f2]) x w = andJS (applyAny f1 x) (applyAny f2 x) w /\
    apply (or [f1; f2]) x w = orJS (applyAny f1 x) (applyAny f2 x) w /\
    apply (and fs) x w =
      fold_left andJS (map (fun c => applyAny c x) fs) (ret true) w /\
    apply (or fs) x w =
      fold_left orJS (map (fun c => applyAny c x) fs) (ret false) w /\
    apply (and [f1; Filter (or [f2; Filter (not f3)])]) x w =
      andJS (applyAny f1 x)
            (orJS (applyAny f2 x) (notJS (applyAny f3 x))) w /\
    (forall tests : list (Element -> bool),
       completion (apply (and (map (fun t => Predicate (pure t)) tests)) x w)
       = Normal (forallb (fun t => t x) tests) /\
       completion (apply (or (map (fun t => Predicate (pure t)) tests)) x w)
       = Normal (existsb (fun t => t x) tests)) /\
    (forall t1 t2 t3 : Element -> bool,
       completion
         (apply (and [Predicate (pure t1);
                      Filter (or [Predicate (pure t2);
                                  Filter (not (Predicate (pure t3)))])]) x w)
       = Normal (t1 x && (t2 x || negb (t3 x)))).
Proof.
  intros f1 f2 f3 fs x w. repeat split.
  - unfold andJS. eval_children.
  - unfold orJS. eval_children.
  - rewrite <- reduce_intersect_fold, bind_ret_l, apply_unfold.
    apply bind_ret_r.
  - rewrite <- reduce_unite_fold, bind_ret_l, apply_unfold.
    apply bind_ret_r.
  - unfold andJS, orJS, notJS. eval_children.
  - apply apply_and_pure.
  - apply apply_or_pure.
  - intros t1 t2 t3. cbv -[andb orb negb].
    destruct (t1 x), (t2 x), (t3 x); reflexivity.
Qed.

(** Clearing the [_async] flags changes nothing to the evaluation. *)
Lemma apply_clearAsync this el w :
  apply (clearAsync this) el w = apply this el w.
Proof.
  revert w. pattern this.
  apply filter_child_ind
    with (Q := fun c => forall w,
                 applyAny (clearAsyncAny c) el w = applyAny c el w);
    clear this.
  - intros fn w. reflexivity.
  - intros f IH w. apply IH.
  - intros op neg a w. reflexivity.
  - intros op neg c cs a IHc IHcs w.
    cbn [clearAsync map] in *. fold (clearAsyncAny c).
    rewrite !apply_cons, (@bind_ext_l _ _ _ _ _ _ (IHc w)).
    apply bind_ext_r. intros b w'. destruct (Bool.eqb b (seed op)); trivial.
Qed.

(** C10.  The [_async] flag is not read by the evaluation: two nodes that
    differ only in the value of that flag (their own, or that of nodes
    below them) evaluate alike on every element and in every state. *)
Theorem C10_async_not_read :
  forall this g x w,
    clearAsync this = clearAsync g -> apply this x w = apply g x w.
Proof.
  intros this g x w E.
  rewrite <- (apply_clearAsync this), <- (apply_clearAsync g).
  now rewrite E.
Qed.

(** *** Fail-fast runs *)

Lemma FailFast_ret A (a : A) w : FailFast (ret a w).
Proof. constructor. Qed.

Lemma FailFast_invoke p el w : FailFast (invoke p el w).
Proof.
  unfold invoke, FailFast. destruct (p el w) as [[b|e] w']; cbn.
  - repeat constructor. now exists b.
  - exists [], {| callee := p; argument := el; outcome := Throw e |}.
    repeat split. constructor.
Qed.

Lemma FailFast_bind A B (m : Eff A) (k : A -> Eff B) w :
  FailFast (m w) -> (forall a w', FailFast (k a w')) -> FailFast (bind m k w).
Proof.
  unfold bind, FailFast. intros Hm Hk.
  destruct (m w) as [[a|e] w1 l1]; cbn in *; trivial.
  specialize (Hk a w1). destruct (k a w1) as [[b|e] w2 l2]; cbn in *.
  - apply Forall_app. now split.
  - destruct Hk as (pre & i & -> & Hpre & Hi).
    exists (l1 ++ pre), i. rewrite app_assoc. repeat split; trivial.
    apply Forall_app. now split.
Qed.

Lemma apply_FailFast this el w : FailFast (apply this el w).
Proof.
  revert w. pattern this.
  apply filter_child_ind
    with (Q := fun c => forall w, FailFast (applyAny c el w)); clear this.
  - intros fn w. apply FailFast_invoke.
  - intros f IH w. apply IH.
  - intros op neg a w. rewrite apply_nil. apply FailFast_ret.
  - intros op neg c cs a IHc IHcs w. rewrite apply_cons.
    apply FailFast_bind; trivial.
    intros b w'. destruct (Bool.eqb b (seed op)); trivial.
    apply FailFast_ret.
Qed.

(** A thrown invocation of a fail-fast run is its last one, and the run
    ends with that very error. *)
Lemma FailFast_thrown A (r : Run A) pre i post e :
  FailFast r -> calls r = pre ++ i :: post -> outcome i = Throw e ->
  completion r = Throw e /\ post = [] /\ Forall returned pre.
Proof.
  unfold FailFast. intros H E Hi.
  assert (Hnot : ~ returned i) by (intros [b Hb]; congruence).
  destruct (completion r) as [v|e'].
  - rewrite E in H. apply Forall_app in H as [_ H].
    inversion H; subst. contradiction.
  - destruct H as (pre' & i' & E' & Hpre & Hi').
    rewrite E in E'. clear E.
    destruct (exists_last (l := i :: post)) as (l & z & El); [discriminate|].
    rewrite El, app_assoc in E'. apply app_inj_tail in E' as [<- ->].
    destruct l as [|y l]; cbn in El.
    + injection El as -> ->. split; [congruence|]. split; trivial.
      now rewrite app_nil_r in Hpre.
    + injection El as <- _. apply Forall_app in Hpre as [_ Hpre].
      inversion Hpre; subst. contradiction.
Qed.

(** C5.  [apply] does not throw by itself: when every leaf invocation it
    makes returns, so does [apply]; and it ends with an error only with
    the one its last leaf invocation threw.  A leaf predicate that
    throws while the tree is evaluated aborts the evaluation: [apply] ends
    with that same error, and nothing is invoked after it. *)
Theorem C5_fail_fast :
  forall this x w,
    (Forall returned (calls (apply this x w)) ->
     exists b, completion (apply this x w) = Normal b) /\
    (forall e,
       completion (apply this x w) = Throw e ->
       exists pre i,
         calls (apply this x w) = pre ++ [i] /\ outcome i = Throw e) /\
    (forall pre i post e,
       calls (apply this x w) = pre ++ i :: post ->
       outcome i = Throw e ->
       completion (apply this x w) = Throw e /\ post = [] /\
       Forall returned pre).
Proof.
  intros this x w. pose proof (apply_FailFast this x w) as H.
  split; [|split].
  - intros Hall. unfold FailFast in H.
    destruct (completion (apply this x w)) as [b|e]; [now exists b|].
    destruct H as (pre & i & E & _ & Hi).
    rewrite E in Hall. apply Forall_app in Hall as [_ Hall].
    inversion Hall as [|? ? [b Hb] _]; subst. congruence.
  - intros e E. unfold FailFast in H. rewrite E in H.
    destruct H as (pre & i & Ec & _ & Hi). now exists pre, i.
  - intros pre i post e. now apply FailFast_thrown.
Qed.

(** *** Which leaves a call invokes *)

Lemma Subsequence_nil_l A (l : list A) : Subsequence [] l.
Proof. induction l; constructor; trivial. Qed.

Lemma Subsequence_refl A (l : list A) : Subsequence l l.
Proof. induction l; [constructor | now apply Subsequence_keep]. Qed.

Lemma Subsequence_app A (l1 l2 k1 k2 : list A) :
  Subsequence l1 l2 -> Subsequence k1 k2 -> Subsequence (l1 ++ k1) (l2 ++ k2).
Proof.
  induction 1 as [|y l1 l2 _ IH|y l1 l2 _ IH]; intros Hk; cbn; trivial.
  - apply Subsequence_skip; auto.
  - apply Subsequence_keep; auto.
Qed.

Lemma calls_bind A B (m : Eff A) (k : A -> Eff B) w :
  calls (bind m k w) =
  calls (m w) ++
  match completion (m w) with
  | Normal a => calls (k a (world (m w)))
  | Throw _ => []
  end.
Proof.
  unfold bind. destruct (completion (m w)); cbn; trivial.
  now rewrite app_nil_r.
Qed.

Lemma leaves_cons op neg c cs a :
  leaves (new_QueryFilterImpl op neg (c :: cs) a) =
  leavesAny c ++ leaves (new_QueryFilterImpl op neg cs a).
Proof. reflexivity. Qed.

Lemma NothingSkipped_cons el op neg c cs a w :
  NothingSkipped el (new_QueryFilterImpl op neg (c :: cs) a) w <->
  NothingSkippedAny el c w /\
  (cs <> [] -> completion (applyAny c el w) = Normal (seed op)) /\
  NothingSkipped el (new_QueryFilterImpl op neg cs a) (world (applyAny c el w)).
Proof. reflexivity. Qed.

Lemma expected_cons op neg c cs a el w :
  expected (new_QueryFilterImpl op neg (c :: cs) a) el w =
  expectedAny c el w ++
  match completion (applyAny c el w) with
  | Normal b =>
      if Bool.eqb b (seed op)
      then expected (new_QueryFilterImpl op neg cs a) el (world (applyAny c el w))
      else []
  | Throw _ => []
  end.
Proof. reflexivity. Qed.

Lemma invoke_callees p el w : map callee (calls (invoke p el w)) = [p].
Proof. unfold invoke. now destruct (p el w). Qed.

Lemma apply_calls_subsequence this el w :
  Subsequence (map callee (calls (apply this el w))) (leaves this).
Proof.
  revert w. pattern this.
  apply filter_child_ind
    with (Q := fun c => forall w,
                 Subsequence (map callee (calls (applyAny c el w)))
                             (leavesAny c)); clear this.
  - intros fn w. cbn [applyAny leavesAny]. rewrite invoke_callees.
    apply Subsequence_refl.
  - intros f IH w. apply IH.
  - intros op neg a w. rewrite apply_nil. constructor.
  - intros op neg c cs a IHc IHcs w.
    rewrite apply_cons, calls_bind, map_app, leaves_cons.
    apply Subsequence_app; trivial.
    destruct (completion (applyAny c el w)) as [b|e];
      [|apply Subsequence_nil_l].
    destruct (Bool.eqb b (seed op)); [apply IHcs|apply Subsequence_nil_l].
Qed.

Lemma apply_calls_all this el w :
  NothingSkipped el this w ->
  map callee (calls (apply this el w)) = leaves this.
Proof.
  revert w. pattern this.
  apply filter_child_ind
    with (Q := fun c => forall w,
                 NothingSkippedAny el c w ->
                 map callee (calls (applyAny c el w)) = leavesAny c);
    clear this.
  - intros fn w _. apply invoke_callees.
  - intros f IH w. apply IH.
  - intros op neg a w _. now rewrite apply_nil.
  - intros op neg c cs a IHc IHcs w [Hc [Hseed Hcs]]%NothingSkipped_cons.
    rewrite apply_cons, calls_bind, map_app, leaves_cons, IHc by trivial.
    f_equal. destruct cs as [|c' cs'].
    + destruct (completion (applyAny c el w)) as [b|e]; trivial.
      destruct (Bool.eqb b (seed op)); trivial. now rewrite apply_nil.
    + rewrite Hseed by discriminate. rewrite Bool.eqb_reflx. now apply IHcs.
Qed.

Lemma apply_calls_expected this el w :
  calls (apply this el w) = expected this el w.
Proof.
  revert w. pattern this.
  apply filter_child_ind
    with (Q := fun c => forall w,
                 calls (applyAny c el w) = expectedAny c el w);
    clear this.
  - intros fn w. cbn [applyAny expectedAny]. unfold invoke.
    now destruct (fn el w).
  - intros f IH w. apply IH.
  - intros op neg a w. now rewrite apply_nil.
  - intros op neg c cs a IHc IHcs w.
    rewrite apply_cons, calls_bind, expected_cons, IHc. f_equal.
    destruct (completion (applyAny c el w)) as [b|e]; trivial.
    destruct (Bool.eqb b (seed op)); trivial.
Qed.

(** A node evaluates its first children as [and] (resp. [or]) of them
    does, and goes on to the others only when that yields the seed. *)
Lemma apply_app op neg pre rest a el w :
  apply (new_QueryFilterImpl op neg (pre ++ rest) a) el w =
  bind (apply (chain op pre) el)
       (fun b =>
          if Bool.eqb b (seed op)
          then apply (new_QueryFilterImpl op neg rest a) el
          else ret (if neg then negb b else b)) w.
Proof.
  revert w. induction pre as [|c pre IH]; intros w.
  - destruct op; unfold chain, and, or, bind; rewrite apply_nil;
      cbn; symmetry; apply run_eta.
  - assert (E : chain op (c :: pre) =
                new_QueryFilterImpl op false (c :: pre) false)
      by now destruct op.
    assert (E' : new_QueryFilterImpl op false pre false = chain op pre)
      by now destruct op.
    rewrite E. cbn [app]. rewrite apply_cons.
    symmetry. etransitivity; [apply bind_ext_l, apply_cons|].
    rewrite bind_assoc. symmetry.
    apply bind_ext_r. intros b w'.
    destruct (Bool.eqb b (seed op)) eqn:Eb.
    + rewrite E'. apply IH.
    + rewrite bind_ret_l, Eb. reflexivity.
Qed.

Lemma apply_calls_skip op neg pre rest a el w :
  completion (apply (chain op pre) el w) <> Normal (seed op) ->
  calls (apply (new_QueryFilterImpl op neg (pre ++ rest) a) el w) =
  calls (apply (chain op pre) el w).
Proof.
  intros H. rewrite apply_app, calls_bind.
  destruct (completion (apply (chain op pre) el w)) as [b|e];
    [|apply app_nil_r].
  destruct (Bool.eqb b (seed op)) eqn:E; [|apply app_nil_r].
  apply Bool.eqb_prop in E. congruence.
Qed.

Lemma apply_calls_continue op neg pre rest a el w :
  completion (apply (chain op pre) el w) = Normal (seed op) ->
  calls (apply (new_QueryFilterImpl op neg (pre ++ rest) a) el w) =
  calls (apply (chain op pre) el w) ++
  calls (apply (new_QueryFilterImpl op neg rest a) el
           (world (apply (chain op pre) el w))).
Proof.
  intros H. rewrite apply_app, calls_bind, H.
  now rewrite Bool.eqb_reflx.
Qed.

(** C3 (amended).  [apply] caches nothing and reuses no result, across or
    within calls: every call makes exactly the leaf invocations of
    [expected], that is, it runs anew, on the state at hand, every leaf
    predicate of the tree that the short-circuit of [&&] and [||] does not
    cut off, a sub-tree that appears twice being evaluated at each of its
    places.  The invoked leaves are thus leaves of the tree in tree order;
    they are all of them when nothing is cut off in that call; and for
    every split of a node's children into first and later ones, the later
    ones are evaluated, in the state the first ones leave, exactly when
    the first ones all yield the seed. *)
Theorem C3_no_caching :
  forall this x w,
    calls (apply this x w) = expected this x w /\
    Subsequence (map callee (calls (apply this x w))) (leaves this) /\
    (NothingSkipped x this w ->
     map callee (calls (apply this x w)) = leaves this) /\
    (forall pre rest,
       filters this = pre ++ rest ->
       completion (apply (chain (chainOp this) pre) x w)
         <> Normal (seed (chainOp this)) ->
       calls (apply this x w) =
       calls (apply (chain (chainOp this) pre) x w)) /\
    (forall pre rest,
       filters this = pre ++ rest ->
       completion (apply (chain (chainOp this) pre) x w)
         = Normal (seed (chainOp this)) ->
       calls (apply this x w) =
       calls (apply (chain (chainOp this) pre) x w) ++
       calls (apply (new_QueryFilterImpl (chainOp this) (negated this) rest
                       (async this)) x
                (world (apply (chain (chainOp this) pre) x w)))).
Proof.
  intros this x w. repeat apply conj.
  - apply apply_calls_expected.
  - apply apply_calls_subsequence.
  - apply apply_calls_all.
  - destruct this as [op neg fs a]. cbn [filters chainOp].
    intros pre rest ->. apply apply_calls_skip.
  - destruct this as [op neg fs a]. cbn [filters chainOp negated async].
    intros pre rest ->. apply apply_calls_continue.
Qed.

(** *** Further laws of the combinators *)

(** A node is its un-negated twin followed by the last line of [apply]. *)
Lemma apply_negated op neg fs a el w :
  apply (new_QueryFilterImpl op neg fs a) el w =
  bind (apply (new_QueryFilterImpl op false fs a) el)
       (fun b => ret (if neg then negb b else b)) w.
Proof.
  rewrite !apply_unfold. cbn [chainOp filters]. rewrite bind_assoc.
  apply bind_ext_r. intros b w'. unfold finish. cbn [negated].
  now rewrite bind_ret_l.
Qed.

(** The [negated] flag and [not] are one and the same negation: a negated
    node is [!] of the same node without the flag, and [not(g)] evaluates
    as [g] with its flag flipped; value or error, state and leaf
    invocations agree. *)
Theorem negation_is_the_flag :
  forall op fs a g x w,
    apply (new_QueryFilterImpl op true fs a) x w =
      notJS (apply (new_QueryFilterImpl op false fs a) x) w /\
    apply (not (Filter g)) x w = apply (toggle g) x w.
Proof.
  intros op fs a g x w. split.
  - apply apply_negated.
  - destruct g as [op' neg' fs' a']. unfold not, toggle.
    cbn [chainOp negated filters async].
    rewrite apply_cons. cbn [applyAny].
    rewrite (apply_negated op' (negb neg')).
    etransitivity; [apply bind_ext_l, apply_negated|].
    rewrite bind_assoc. apply bind_ext_r. intros b w'.
    rewrite bind_ret_l.
    destruct neg', b; cbn [negb seed Bool.eqb]; rewrite ?apply_nil;
      reflexivity.
Qed.

Lemma singleton_chain_run c el w :
  apply (new_QueryFilterImpl Intersection false [c] false) el w
    = applyAny c el w /\
  apply (new_QueryFilterImpl Union false [c] false) el w = applyAny c el w.
Proof. split; eval_children. Qed.

(** Wrapping one child in [and] or in [or] changes nothing: the node
    evaluates exactly as the child does. *)
Theorem singleton_chain :
  forall c x w,
    apply (and [c]) x w = applyAny c x w /\
    apply (or [c]) x w = applyAny c x w.
Proof. intros c x w. apply singleton_chain_run. Qed.

(** A child that is itself an un-negated node of the same operator can be
    inlined: [and(..., and(m1, ..., mk), ...)] evaluates exactly as
    [and(..., m1, ..., mk, ...)], and likewise for [or], under any
    negation of the outer node. *)
Theorem nested_chain_flattens :
  forall op neg pre mid post a x w,
    apply (new_QueryFilterImpl op neg (pre ++ Filter (chain op mid) :: post) a)
          x w =
    apply (new_QueryFilterImpl op neg (pre ++ mid ++ post) a) x w.
Proof.
  intros op neg pre mid post a x w.
  rewrite !(apply_app op neg pre). apply bind_ext_r. intros b w'.
  destruct (Bool.eqb b (seed op)); trivial.
  now rewrite apply_cons, apply_app.
Qed.

Lemma apply_not c el w :
  apply (not c) el w = bind (applyAny c el) (fun b => ret (negb b)) w.
Proof. eval_children. Qed.

(** A negated node is the un-negated node of the other operator over the
    negated children. *)
Lemma de_morgan_chain op (fs : list AnyFilter) el w :
  apply (new_QueryFilterImpl op true fs false) el w =
  apply (new_QueryFilterImpl
           match op with Intersection => Union | Union => Intersection end
           false (map (fun c => Filter (not c)) fs) false) el w.
Proof.
  revert w. induction fs as [|c cs IH]; intros w.
  - destruct op; reflexivity.
  - cbn [map]. rewrite !apply_cons. cbn [applyAny].
    symmetry. etransitivity; [apply bind_ext_l, apply_not|].
    rewrite bind_assoc. apply bind_ext_r. intros b w'.
    rewrite bind_ret_l.
    destruct op, b; cbn [seed Bool.eqb negb]; rewrite ?IH; reflexivity.
Qed.

(** De Morgan, for any number of children: [not(and(c1, ..., cn))]
    evaluates exactly as [or(not(c1), ..., not(cn))], and [not(or(...))]
    as [and(not(c1), ..., not(cn))]. *)
Theorem de_morgan_any_arity :
  forall (fs : list AnyFilter) x w,
    apply (not (Filter (and fs))) x w =
      apply (or (map (fun c => Filter (not c)) fs)) x w /\
    apply (not (Filter (or fs))) x w =
      apply (and (map (fun c => Filter (not c)) fs)) x w.
Proof.
  intros fs x w. split.
  - unfold or. rewrite <- (de_morgan_chain Intersection). unfold not, and.
    rewrite apply_cons. cbn [applyAny].
    rewrite (apply_negated Intersection true).
    apply bind_ext_r. intros b w'.
    destruct b; cbn [seed Bool.eqb negb]; rewrite ?apply_nil; reflexivity.
  - unfold and. rewrite <- (de_morgan_chain Union). unfold not, or.
    rewrite apply_cons. cbn [applyAny].
    rewrite (apply_negated Union true).
    apply bind_ext_r. intros b w'.
    destruct b; cbn [seed Bool.eqb negb]; rewrite ?apply_nil; reflexivity.
Qed.

(** *** Early ends, state and the boolean formula *)

Lemma completion_bind A B (m : Eff A) (k : A -> Eff B) w :
  completion (bind m k w) =
  match completion (m w) with
  | Normal a => completion (k a (world (m w)))
  | Throw e => Throw e
  end.
Proof. unfold bind. now destruct (completion (m w)). Qed.

Lemma world_bind A B (m : Eff A) (k : A -> Eff B) w :
  world (bind m k w) =
  match completion (m w) with
  | Normal a => world (k a (world (m w)))
  | Throw _ => world (m w)
  end.
Proof. unfold bind. now destruct (completion (m w)). Qed.

Lemma apply_async op neg fs a a' el :
  apply (new_QueryFilterImpl op neg fs a) el =
  apply (new_QueryFilterImpl op neg fs a') el.
Proof. now rewrite !apply_unfold. Qed.

(** When the first children of a node do not all yield its seed (one of
    them yields [false] under Intersection, [true] under Union, or
    throws), the node evaluates exactly as if the children after them
    were not there: they cannot change its result, not even by throwing. *)
Theorem later_children_irrelevant :
  forall op neg pre rest a x w,
    completion (apply (chain op pre) x w) <> Normal (seed op) ->
    apply (new_QueryFilterImpl op neg (pre ++ rest) a) x w =
    apply (new_QueryFilterImpl op neg pre a) x w.
Proof.
  intros op neg pre rest a x w H.
  assert (E : chain op pre = new_QueryFilterImpl op false pre false)
    by now destruct op.
  rewrite apply_app, (apply_negated op neg pre), (apply_async op false pre a false).
  rewrite E in *. unfold bind.
  destruct (completion (apply (new_QueryFilterImpl op false pre false) x w))
    as [b|e]; trivial.
  destruct (Bool.eqb b (seed op)) eqn:Eb; trivial.
  apply Bool.eqb_prop in Eb. congruence.
Qed.

(** [apply] writes no state of its own: when the leaves of the tree leave
    the state as they found it on [x], so does [apply]. *)
Theorem apply_preserves_state :
  forall this x,
    (forall p, In p (leaves this) -> forall w, snd (p x w) = w) ->
    forall w, world (apply this x w) = w.
Proof.
  intros this x. pattern this.
  apply filter_child_ind
    with (Q := fun c =>
                 (forall p, In p (leavesAny c) ->
                             forall w, snd (p x w) = w) ->
                 forall w, world (applyAny c x w) = w); clear this.
  - intros fn H w. cbn [applyAny]. unfold invoke.
    specialize (H fn (or_introl eq_refl) w).
    now destruct (fn x w).
  - intros f IH. exact IH.
  - intros op neg a _ w. now rewrite apply_nil.
  - intros op neg c cs a IHc IHcs H w.
    rewrite leaves_cons in H.
    assert (Hc : forall w, world (applyAny c x w) = w)
      by (apply IHc; intros; apply H, in_or_app; now left).
    assert (Hcs : forall w, world (apply (new_QueryFilterImpl op neg cs a) x w) = w)
      by (apply IHcs; intros; apply H, in_or_app; now right).
    rewrite apply_cons, world_bind, Hc.
    destruct (completion (applyAny c x w)) as [b|e]; trivial.
    destruct (Bool.eqb b (seed op)); trivial.
Qed.

Lemma formula_cons v op neg c cs a :
  formula v (new_QueryFilterImpl op neg (c :: cs) a) =
  if Bool.eqb (formulaAny v c) (seed op)
  then formula v (new_QueryFilterImpl op neg cs a)
  else if neg then negb (formulaAny v c) else formulaAny v c.
Proof.
  cbn [formula map forallb existsb]. fold (formulaAny v c).
  destruct op, (formulaAny v c); reflexivity.
Qed.

Lemma apply_formula v this x w :
  (forall p, In p (leaves this) -> p x w = (Normal (v p), w)) ->
  completion (apply this x w) = Normal (formula v this) /\
  world (apply this x w) = w.
Proof.
  pattern this.
  apply filter_child_ind
    with (Q := fun c =>
                 (forall p, In p (leavesAny c) ->
                             p x w = (Normal (v p), w)) ->
                 completion (applyAny c x w) = Normal (formulaAny v c) /\
                 world (applyAny c x w) = w); clear this.
  - intros fn H. cbn [applyAny formulaAny]. unfold invoke.
    now rewrite (H fn (or_introl eq_refl)).
  - intros f IH. exact IH.
  - intros op neg a _. rewrite apply_nil.
    split; trivial; destruct op, neg; reflexivity.
  - intros op neg c cs a IHc IHcs H. rewrite leaves_cons in H.
    destruct IHc as [Ec Wc]; [intros; apply H, in_or_app; now left|].
    destruct IHcs as [Ecs Wcs]; [intros; apply H, in_or_app; now right|].
    rewrite apply_cons, completion_bind, world_bind, Ec, Wc, formula_cons.
    destruct (Bool.eqb (formulaAny v c) (seed op)); split; trivial.
Qed.

(** With leaves that return a boolean and leave the state alone, the
    skipping of [&&] and [||] cannot be observed in the result: [apply]
    returns the value of the boolean formula the tree spells, in which
    every leaf takes part, and the state is unchanged. *)
Theorem apply_is_the_formula :
  forall v this x w,
    (forall p, In p (leaves this) -> p x w = (Normal (v p), w)) ->
    completion (apply this x w) = Normal (formula v this) /\
    world (apply this x w) = w.
Proof. intros v this x w. apply apply_formula. Qed.

Lemma formula_Permutation v op neg fs fs' a :
  Permutation fs fs' ->
  formula v (new_QueryFilterImpl op neg fs a) =
  formula v (new_QueryFilterImpl op neg fs' a).
Proof.
  induction 1 as [|c l l' _ IH|c c' l|l l' l'' _ IH1 _ IH2].
  - reflexivity.
  - now rewrite !formula_cons, IH.
  - rewrite !formula_cons.
    destruct op, neg, (formulaAny v c), (formulaAny v c'); reflexivity.
  - now rewrite IH1.
Qed.

(** With such leaves the order of the children does not matter for the
    result: a node and the same node with its children permuted return
    the same boolean. *)
Theorem children_order_irrelevant :
  forall v op neg fs fs' a x w,
    Permutation fs fs' ->
    (forall p, In p (leaves (new_QueryFilterImpl op neg fs a)) ->
                p x w = (Normal (v p), w)) ->
    completion (apply (new_QueryFilterImpl op neg fs a) x w) =
    completion (apply (new_QueryFilterImpl op neg fs' a) x w).
Proof.
  intros v op neg fs fs' a x w Hp H.
  destruct (@apply_formula v (new_QueryFilterImpl op neg fs a) x w H) as [-> _].
  destruct (@apply_formula v (new_QueryFilterImpl op neg fs' a) x w) as [-> _].
  - intros fn Hin. apply H. cbn [leaves] in *.
    eapply Permutation_in; [|exact Hin].
    apply Permutation_flat_map. now symmetry.
  - f_equal. now apply formula_Permutation.
Qed.

(** Every leaf invocation [apply] makes passes on the element it was
    given. *)
Theorem leaves_receive_the_element :
  forall this x w, Forall (fun i => argument i = x) (calls (apply this x w)).
Proof.
  intros this x. pattern this.
  apply filter_child_ind
    with (Q := fun c => forall w,
                 Forall (fun i => argument i = x) (calls (applyAny c x w)));
    clear this.
  - intros fn w. cbn [applyAny]. unfold invoke.
    destruct (fn x w). repeat constructor.
  - intros f IH. exact IH.
  - intros op neg a w. rewrite apply_nil. constructor.
  - intros op neg c cs a IHc IHcs w. rewrite apply_cons, calls_bind.
    apply Forall_app. split; trivial.
    destruct (completion (applyAny c x w)) as [b|e]; [|constructor].
    destruct (Bool.eqb b (seed op)); [apply IHcs|constructor].
Qed.

Lemma apply_identity el w :
  apply identity el w =
  {| completion := Normal true;
     world := w;
     calls := [ {| callee := fun _ w => (Normal true, w);
                   argument := el;
                   outcome := Normal true |} ] |}.
Proof. reflexivity. Qed.

(** [identity] is neutral for [and], on either side, and decides [or]:
    [and(identity, c)] and [and(c, identity)] end as [c] does, and
    [or(identity, ...)] is [true] without evaluating anything else. *)
Theorem identity_laws :
  forall c (cs : list AnyFilter) x w,
    (completion (apply (and [Filter identity; c]) x w)
       = completion (applyAny c x w) /\
     world (apply (and [Filter identity; c]) x w)
       = world (applyAny c x w)) /\
    (completion (apply (and [c; Filter identity]) x w)
       = completion (applyAny c x w) /\
     world (apply (and [c; Filter identity]) x w)
       = world (applyAny c x w)) /\
    apply (or (Filter identity :: cs)) x w = apply identity x w.
Proof.
  intros c cs x w. unfold and, or. repeat split.
  - rewrite apply_cons, completion_bind. cbn [applyAny].
    rewrite apply_identity. cbn [completion world seed Bool.eqb].
    now rewrite (proj1 (singleton_chain_run c x w)).
  - rewrite apply_cons, world_bind. cbn [applyAny].
    rewrite apply_identity. cbn [completion world seed Bool.eqb].
    now rewrite (proj1 (singleton_chain_run c x w)).
  - rewrite apply_cons, completion_bind.
    destruct (completion (applyAny c x w)) as [[|]|e]; trivial.
  - rewrite apply_cons, world_bind.
    destruct (completion (applyAny c x w)) as [[|]|e]; trivial.
  - rewrite apply_cons. cbn [applyAny]. unfold bind.
    rewrite apply_identity. reflexivity.
Qed.

End Engine.

Arguments Normal {Error A} v.
Arguments Throw {Error A} e.

(** ** Concrete runs

    Elements and states are [unit] and errors are numbers, unless said
    otherwise. *)

(** The scenario of the specification: elements carry a list of tags
    (numbers here), and [hasTag t] is [el => el.tags.includes(t)]. *)
Example tags_and_both :
  completion
    (apply (and [Predicate (pure (fun el => existsb (Nat.eqb 1) el));
                 Predicate (pure (fun el => existsb (Nat.eqb 2) el))])
           [1; 2] tt)
  = Normal (Error := nat) true.
Proof. reflexivity. Qed.

Example tags_and_one :
  completion
    (apply (and [Predicate (pure (fun el => existsb (Nat.eqb 1) el));
                 Predicate (pure (fun el => existsb (Nat.eqb 2) el))])
           [1] tt)
  = Normal (Error := nat) false.
Proof. reflexivity. Qed.

Example tags_or_none :
  completion
    (apply (or [Predicate (pure (fun el => existsb (Nat.eqb 1) el));
                Predicate (pure (fun el => existsb (Nat.eqb 2) el))])
           [3] tt)
  = Normal (Error := nat) false.
Proof. reflexivity. Qed.

Example tags_and_not :
  completion
    (apply (and [Predicate (pure (fun el => existsb (Nat.eqb 1) el));
                 Filter (not (Predicate
                                (pure (fun el => existsb (Nat.eqb 2) el))))])
           [1; 2] tt)
  = Normal (Error := nat) false.
Proof. reflexivity. Qed.

(** A predicate that counts its own invocations in the state: the same
    sub-tree placed twice is run twice. *)
Example counting_twice :
  world
    (apply (Error := nat)
       (and [Filter (filter (fun _ n => (Normal true, S n)));
             Filter (filter (fun _ n => (Normal true, S n)))])
       tt 0)
  = 2.
Proof. reflexivity. Qed.

(** ... and is not run at all behind a [false]. *)
Example counting_skipped :
  world
    (apply (Error := nat)
       (and [Predicate (always false);
             Filter (filter (fun _ n => (Normal true, S n)))])
       tt 0)
  = 0.
Proof. reflexivity. Qed.

(** C3, as stated, fails: in [and(() => false, () => true)] the second
    leaf is never invoked. *)
Lemma C3_counterexample :
  map callee
    (calls (apply (Element := unit) (Error := nat) (World := unit)
              (and [Predicate (always false); Predicate (always true)])
              tt tt))
  <> leaves (and [Predicate (always false); Predicate (always true)]).
Proof. intros H. apply (f_equal (@length _)) in H. discriminate H. Qed.

(** In [and(or(T, F), F)] the inner [F] is cut off and the outer one is
    evaluated; in [and(sub, sub)] with [sub = or(T, F)] the sub-tree is
    evaluated at both of its places. *)
Example cut_off_inside_only :
  map callee
    (calls (apply (Element := unit) (Error := nat) (World := unit)
              (and [Filter (or [Predicate (always true);
                                Predicate (always false)]);
                    Predicate (always false)])
              tt tt))
  = [always true; always false].
Proof. reflexivity. Qed.

Example same_subtree_twice :
  map callee
    (calls (apply (Element := unit) (Error := nat) (World := unit)
              (and [Filter (or [Predicate (always true);
                                Predicate (always false)]);
                    Filter (or [Predicate (always true);
                                Predicate (always false)])])
              tt tt))
  = [always true; always true].
Proof. reflexivity. Qed.

(** The first leaf below returns the state it reads: started in [true],
    the call cuts nothing off.  Then a [false] first child cuts off the
    two after it, and a sub-tree that yields [true] is followed by its
    second copy. *)
Lemma C3_witness :
  map callee
    (calls (apply (Element := unit) (Error := nat) (World := bool)
              (and [Predicate (fun _ w => (Normal w, w));
                    Filter (or [Predicate (always false);
                                Predicate (always true)])])
              tt true))
  = leaves (and [Predicate (fun _ w => (Normal w, w));
                 Filter (or [Predicate (always false);
                             Predicate (always true)])])
  /\
  calls (apply (Element := unit) (Error := nat) (World := unit)
           (and [Predicate (always true); Predicate (always false);
                 Predicate (always true)]) tt tt)
  = calls (apply (and [Predicate (always true); Predicate (always false)])
             tt tt)
  /\
  calls (apply (Element := unit) (Error := nat) (World := unit)
           (and [Filter (or [Predicate (always true);
                             Predicate (always false)]);
                 Filter (or [Predicate (always true);
                             Predicate (always false)])]) tt tt)
  = calls (apply (and [Filter (or [Predicate (always true);
                                   Predicate (always false)])]) tt tt) ++
    calls (apply (and [Filter (or [Predicate (always true);
                                   Predicate (always false)])]) tt tt).
Proof.
  split; [|split].
  - apply (proj1 (proj2 (proj2
             (C3_no_caching
                (and [Predicate (fun _ w => (Normal w, w));
                      Filter (or [Predicate (always false);
                                  Predicate (always true)])]) tt true)))).
    cbn. repeat split; intros; reflexivity || contradiction.
  - apply (proj1 (proj2 (proj2 (proj2
             (C3_no_caching
                (and [Predicate (always true); Predicate (always false);
                      Predicate (always true)]) tt tt))))
             [Predicate (always true); Predicate (always false)]
             [Predicate (always true)]).
    + reflexivity.
    + cbn. discriminate.
  - apply (proj2 (proj2 (proj2 (proj2
             (C3_no_caching
                (and [Filter (or [Predicate (always true);
                                  Predicate (always false)]);
                      Filter (or [Predicate (always true);
                                  Predicate (always false)])]) tt tt))))
             [Filter (or [Predicate (always true); Predicate (always false)])]
             [Filter (or [Predicate (always true); Predicate (always false)])]);
      reflexivity.
Defined.

(** C4, as stated, fails: the negation of the seed [true] is [false], and
    that of the seed [false] is [true]. *)
Lemma C4_counterexample :
  completion
    (apply (Element := unit) (Error := nat) (World := unit)
       (not (Filter (and []))) tt tt) <> Normal true /\
  completion
    (apply (Element := unit) (Error := nat) (World := unit)
       (not (Filter (or []))) tt tt) <> Normal false.
Proof. split; discriminate. Qed.

Lemma C5_witness :
  (exists b,
     completion
       (apply (Element := unit) (Error := nat) (World := unit)
          (and [Predicate (always true); Predicate (always false)]) tt tt)
     = Normal b) /\
  (exists pre i,
     calls
       (apply (Element := unit) (Error := nat) (World := unit)
          (and [Predicate (always true); Predicate (raise 7);
                Predicate (always true)]) tt tt)
     = pre ++ [i] /\ outcome i = Throw 7) /\
  (completion
     (apply (Element := unit) (Error := nat) (World := unit)
        (and [Predicate (always true); Predicate (raise 7);
              Predicate (always true)]) tt tt)
   = Throw 7 /\
   @nil (@Invocation unit nat unit) = [] /\
   Forall returned
     [ {| callee := always (World := unit) true; argument := tt;
          outcome := Normal (Error := nat) true |} ]).
Proof.
  split; [|split].
  - apply (proj1 (C5_fail_fast _ tt tt)).
    repeat constructor; eexists; reflexivity.
  - apply (proj1 (proj2 (C5_fail_fast _ tt tt))). reflexivity.
  - apply (proj2 (proj2 (C5_fail_fast _ tt tt))
             _ {| callee := raise 7; argument := tt; outcome := Throw 7 |});
      reflexivity.
Defined.

Lemma C10_witness :
  apply (Element := unit) (Error := nat) (World := unit)
    (new_QueryFilterImpl Union true
       [Predicate (always true);
        Filter (new_QueryFilterImpl Intersection false [] true)] true)
    tt tt
  = apply
      (new_QueryFilterImpl Union true
         [Predicate (always true);
          Filter (new_QueryFilterImpl Intersection false [] false)] false)
      tt tt.
Proof. apply C10_async_not_read. reflexivity. Defined.

(** A throwing leaf behind a deciding [false] is never reached. *)
Lemma later_children_irrelevant_witness :
  apply (Element := unit) (Error := nat) (World := unit)
    (new_QueryFilterImpl Intersection false
       ([Predicate (always false)] ++ [Predicate (raise 7)]) false) tt tt
  = apply
      (new_QueryFilterImpl Intersection false [Predicate (always false)] false)
      tt tt.
Proof. apply later_children_irrelevant. cbn. discriminate. Defined.

(** The state here is a counter that no leaf touches. *)
Lemma apply_preserves_state_witness :
  world
    (apply (Element := unit) (Error := nat) (World := nat)
       (and [Predicate (always true); Filter (not (Predicate (raise 7)))])
       tt 5)
  = 5.
Proof.
  apply apply_preserves_state.
  intros p [<-|[<-|[]]] w; reflexivity.
Defined.

(** [true && (false || true)]. *)
Lemma apply_is_the_formula_witness :
  completion
    (apply (Element := unit) (Error := nat) (World := unit)
       (and [Predicate (always true);
             Filter (or [Predicate (always false); Predicate (always true)])])
       tt tt)
  = Normal true
  /\
  world
    (apply (Element := unit) (Error := nat) (World := unit)
       (and [Predicate (always true);
             Filter (or [Predicate (always false); Predicate (always true)])])
       tt tt)
  = tt.
Proof.
  refine (@apply_is_the_formula unit nat unit
            (fun p =>
               match fst (p tt tt) with Normal b => b | Throw _ => false end)
            (and [Predicate (always true);
                  Filter (or [Predicate (always false);
                              Predicate (always true)])])
            tt tt _).
  intros p [<-|[<-|[<-|[]]]]; reflexivity.
Defined.

Lemma children_order_irrelevant_witness :
  completion
    (apply (Element := unit) (Error := nat) (World := unit)
       (new_QueryFilterImpl Union true
          [Predicate (always true); Predicate (always false)] false) tt tt)
  = completion
      (apply
         (new_QueryFilterImpl Union true
            [Predicate (always false); Predicate (always true)] false) tt tt).
Proof.
  apply children_order_irrelevant
    with (v := fun p =>
                 match fst (p tt tt) with Normal b => b | Throw _ => false end).
  - apply perm_swap.
  - intros p [<-|[<-|[]]]; reflexivity.
Defined.

End Sequel.
